(** * thqueue: a bounded, lock-protected FIFO queue

    Shallow embedding of [src/thqueue.hpp] (class template [thqueue<T>]) and
    of the way [src/main.cpp] calls it.

    Every public member function of [thqueue] takes [m_lock] on entry and
    keeps it until it returns or parks on a condition variable, so each call
    is one atomic step on the pair ([m_capacity], [m_queue]).  A call that
    parks ([std::condition_variable::wait] with a predicate that is false)
    changes nothing before it parks and runs the rest of its body, under the
    lock, in the first state it is scheduled in where the predicate holds.
    The embedding therefore gives each member function as a function from the
    state at lock acquisition to an outcome: [Done] with the return value,
    the new state and the notifications sent, or [Blocked] on a condition
    variable.  An interleaving of threads is a sequence of such steps. *)

From Stdlib Require Import ZArith List Bool Lia.
From Stdlib Require String.
Import ListNotations.
Open Scope Z_scope.

Set Implicit Arguments.

(** ** [size_type]

    [Container::size_type] of [std::deque<T>] is [std::size_t]: an unsigned
    64-bit integer on the platforms the program is built for.  Values are
    kept in [Z]; the one subtraction of the source wraps explicitly. *)

Definition SIZE_BITS : Z := 64.
Definition SIZE_MODULUS : Z := 2 ^ SIZE_BITS.

(** [std::numeric_limits<size_type>::max()] *)
Definition MAX_CAPACITY : Z := SIZE_MODULUS - 1.

(** unsigned arithmetic modulo [2 ^ SIZE_BITS] *)
Definition wrap (x : Z) : Z := x mod SIZE_MODULUS.

Definition is_size_type (x : Z) : Prop := 0 <= x <= MAX_CAPACITY.

Arguments SIZE_MODULUS : simpl never.
Arguments MAX_CAPACITY : simpl never.

(** ** The monitor monad

    State passing over the guarded state [S], a log of the notifications
    sent, and two ways not to finish: parking on a condition variable, and
    the undefined behaviour of [front()] / [pop()] on an empty container. *)

Inductive cond : Type :=
| NotEmptyCond   (* m_notEmptyCond *)
| NotFullCond.   (* m_notFullCond *)

Inductive event : Type :=
| NotifyOne (c : cond).

Inductive outcome (S A : Type) : Type :=
| Done (a : A) (s : S) (evs : list event)
| Blocked (c : cond)
| Undefined.

Arguments Done {S A} a s evs.
Arguments Blocked {S A} c.
Arguments Undefined {S A}.

Definition M (S A : Type) : Type := S -> outcome S A.

Definition ret {S A : Type} (a : A) : M S A :=
  fun s => Done a s [].

Definition bind {S A B : Type} (m : M S A) (k : A -> M S B) : M S B :=
  fun s =>
    match m s with
    | Done a s1 evs1 =>
        match k a s1 with
        | Done b s2 evs2 => Done b s2 (evs1 ++ evs2)
        | Blocked c => Blocked c
        | Undefined => Undefined
        end
    | Blocked c => Blocked c
    | Undefined => Undefined
    end.

Notation "x <- m ;; k" := (bind m (fun x => k))
  (at level 61, m at next level, right associativity).
Notation "m ;; k" := (bind m (fun _ => k))
  (at level 61, right associativity).

(** [if (b) body;] *)
Definition when {S : Type} (b : bool) (body : M S unit) : M S unit :=
  if b then body else ret tt.

(** [cv.wait(g, pred)]: returns at once when [pred] holds, parks otherwise. *)
Definition wait {S : Type} (c : cond) (pred : S -> bool) : M S unit :=
  fun s => if pred s then Done tt s [] else Blocked c.

(** [cv.notify_one()] *)
Definition notify_one {S : Type} (c : cond) : M S unit :=
  fun s => Done tt s [NotifyOne c].

(** ** The queue *)

Section Queue.

(** [value_type] *)
Variable T : Type.

(** The data members guarded by [m_lock]. *)
Record thqueue : Type := mk_thqueue {
  m_capacity : Z;        (* size_type m_capacity *)
  m_queue : list T       (* std::queue<T,Container> m_queue, front first *)
}.

(** *** [std::queue] and field access *)

Definition queue_length (q : thqueue) : Z := Z.of_nat (length (m_queue q)).

Definition queue_is_empty (q : thqueue) : bool :=
  match m_queue q with
  | [] => true
  | _ :: _ => false
  end.

(** [m_queue.size()]; a container holds at most [max_size()] items, which
    is a [size_type], so the count is returned as it is. *)
Definition queue_size : M thqueue Z :=
  fun q => Done (queue_length q) q [].

(** [m_queue.empty()] *)
Definition queue_empty : M thqueue bool :=
  fun q => Done (queue_is_empty q) q [].

(** [m_queue.emplace(std::move(val))] *)
Definition queue_emplace (val : T) : M thqueue unit :=
  fun q => Done tt (mk_thqueue (m_capacity q) (m_queue q ++ [val])) [].

(** [std::move(m_queue.front())] *)
Definition queue_front : M thqueue T :=
  fun q =>
    match m_queue q with
    | [] => Undefined
    | x :: _ => Done x q []
    end.

(** [m_queue.pop()] *)
Definition queue_pop : M thqueue unit :=
  fun q =>
    match m_queue q with
    | [] => Undefined
    | _ :: rest => Done tt (mk_thqueue (m_capacity q) rest) []
    end.

Definition read_capacity : M thqueue Z :=
  fun q => Done (m_capacity q) q [].

Definition write_capacity (cap : Z) : M thqueue unit :=
  fun q => Done tt (mk_thqueue cap (m_queue q)) [].

(** *** Constructors *)

(** [thqueue() : m_capacity(MAX_CAPACITY) {}] *)
Definition thqueue_default : thqueue := mk_thqueue MAX_CAPACITY [].

(** [explicit thqueue(size_t cap) : m_capacity(std::max<size_type>(cap, 1)) {}] *)
Definition thqueue_cap (cap : Z) : thqueue := mk_thqueue (Z.max cap 1) [].

(** *** Member functions *)

(** [bool empty() const] *)
Definition empty : M thqueue bool := queue_empty.

(** [size_type capacity() const] *)
Definition capacity : M thqueue Z := read_capacity.

(** [void capacity(size_type cap)] *)
Definition capacity_set (cap : Z) : M thqueue unit := write_capacity cap.

(** [size_type size() const] *)
Definition size : M thqueue Z := queue_size.

(** [void put(value_type val)] *)
Definition put (val : T) : M thqueue unit :=
  n <- queue_size ;;
  cap <- read_capacity ;;
  when (n >=? cap)
    (wait NotFullCond (fun q => queue_length q <? m_capacity q)) ;;
  wasEmpty <- queue_empty ;;
  queue_emplace val ;;
  when wasEmpty (notify_one NotEmptyCond).

(** [bool try_put(value_type val)] *)
Definition try_put (val : T) : M thqueue bool :=
  n <- queue_size ;;
  cap <- read_capacity ;;
  if n >=? cap then ret false
  else
    queue_emplace val ;;
    when (n =? 0) (notify_one NotEmptyCond) ;;
    ret true.

(** [void get(value_type* val)]; the argument is what [*val] holds on
    entry, the result what it holds on return. *)
Definition get_ptr (slot : T) : M thqueue T :=
  e <- queue_empty ;;
  when e (wait NotEmptyCond (fun q => negb (queue_is_empty q))) ;;
  moved <- queue_front ;;
  let slot := moved in
  queue_pop ;;
  n <- queue_size ;;
  cap <- read_capacity ;;
  when (n =? wrap (cap - 1)) (notify_one NotFullCond) ;;
  ret slot.

(** [value_type get()] *)
Definition get : M thqueue T :=
  e <- queue_empty ;;
  when e (wait NotEmptyCond (fun q => negb (queue_is_empty q))) ;;
  val <- queue_front ;;
  queue_pop ;;
  n <- queue_size ;;
  cap <- read_capacity ;;
  when (n =? wrap (cap - 1)) (notify_one NotFullCond) ;;
  ret val.

(** [bool try_get(value_type* val)]; the argument is what [*val] holds on
    entry, the second component of the result what it holds on return. *)
Definition try_get (slot : T) : M thqueue (bool * T) :=
  e <- queue_empty ;;
  if e then ret (false, slot)
  else
    moved <- queue_front ;;
    let slot := moved in
    queue_pop ;;
    n <- queue_size ;;
    cap <- read_capacity ;;
    when (n =? wrap (cap - 1)) (notify_one NotFullCond) ;;
    ret (true, slot).

(** *** The parameter [val] of [try_put]

    [try_put] takes [value_type val] by value.  The body names [val] once,
    in [m_queue.emplace(std::move(val))]; on the path that returns false it
    is not named at all. *)

(** What the parameter object holds when the body returns. *)
Inductive param_state : Type :=
| Untouched (v : T)     (* never named: still the value it was given *)
| PassedToEmplace.      (* handed to emplace as an rvalue; what it holds
                           then is up to the move constructor of T *)

(** [bool try_put(value_type val)] once more, with the parameter object
    followed through the body beside the returned flag. *)
Definition try_put_val (val : T) : M thqueue (bool * param_state) :=
  n <- queue_size ;;
  cap <- read_capacity ;;
  if n >=? cap then ret (false, Untouched val)
  else
    queue_emplace val ;;
    when (n =? 0) (notify_one NotEmptyCond) ;;
    ret (true, PassedToEmplace).

(** *** Call traces *)

Inductive call : Type :=
| CEmpty
| CCapacity
| CSetCapacity (cap : Z)
| CSize
| CPut (val : T)
| CTryPut (val : T)
| CGetPtr (slot : T)
| CGet
| CTryGet (slot : T).

Inductive reply : Type :=
| RVoid
| RBool (b : bool)
| RSize (n : Z)
| RValue (v : T)             (* returned by value *)
| RSlot (v : T)              (* content of the output slot on return *)
| RBoolSlot (b : bool) (v : T).

Definition exec (c : call) : M thqueue reply :=
  match c with
  | CEmpty => b <- empty ;; ret (RBool b)
  | CCapacity => n <- capacity ;; ret (RSize n)
  | CSetCapacity cap => capacity_set cap ;; ret RVoid
  | CSize => n <- size ;; ret (RSize n)
  | CPut val => put val ;; ret RVoid
  | CTryPut val => b <- try_put val ;; ret (RBool b)
  | CGetPtr slot => v <- get_ptr slot ;; ret (RSlot v)
  | CGet => v <- get ;; ret (RValue v)
  | CTryGet slot => r <- try_get slot ;; ret (RBoolSlot (fst r) (snd r))
  end.

Fixpoint run (cs : list call) : M thqueue (list reply) :=
  match cs with
  | [] => ret []
  | c :: cs' => r <- exec c ;; rs <- run cs' ;; ret (r :: rs)
  end.

(** Arguments of type [size_type] are in its range. *)
Definition well_typed (c : call) : Prop :=
  match c with
  | CSetCapacity cap => is_size_type cap
  | _ => True
  end.

Definition is_set_capacity (c : call) : bool :=
  match c with
  | CSetCapacity _ => true
  | _ => false
  end.

(** Did this reply hand an item of the queue to the caller? *)
Definition removed_one (r : reply) : nat :=
  match r with
  | RValue _ => 1
  | RSlot _ => 1
  | RBoolSlot true _ => 1
  | _ => 0
  end%nat.

Definition removed (rs : list reply) : nat :=
  fold_right (fun r k => (removed_one r + k)%nat) 0%nat rs.

(** States reachable from a constructor by completed calls; [allowed]
    restricts which call may be made in which state. *)
Inductive reachable_by (allowed : thqueue -> call -> Prop) : thqueue -> Prop :=
| reach_default : reachable_by allowed thqueue_default
| reach_cap (cap : Z) :
    is_size_type cap -> reachable_by allowed (thqueue_cap cap)
| reach_call (q : thqueue) (c : call) (r : reply) (q' : thqueue)
             (evs : list event) :
    reachable_by allowed q ->
    well_typed c ->
    allowed q c ->
    exec c q = Done r q' evs ->
    reachable_by allowed q'.

Definition any_call (q : thqueue) (c : call) : Prop := True.

(** [capacity(cap)] only with [cap] not below the current size *)
Definition no_shrink_below_size (q : thqueue) (c : call) : Prop :=
  match c with
  | CSetCapacity cap => queue_length q <= cap
  | _ => True
  end.

(** [capacity(cap)] only with [1 <= cap] *)
Definition positive_capacity (q : thqueue) (c : call) : Prop :=
  match c with
  | CSetCapacity cap => 1 <= cap
  | _ => True
  end.

Definition reachable : thqueue -> Prop := reachable_by any_call.

(** What [getSize()] and [getCapacity()] report in [q]. *)
Definition size_within_capacity (q : thqueue) : Prop :=
  exists n cap : Z,
    size q = Done n q [] /\ capacity q = Done cap q [] /\ 0 <= n <= cap.

Definition capacity_positive (q : thqueue) : Prop :=
  exists cap : Z, capacity q = Done cap q [] /\ 1 <= cap.

(** *** Derived notions used by the proofs *)

(** What the notification test of the getters sends once [rest] is left. *)
Definition not_full_signal (cap : Z) (rest : list T) : list event :=
  if Z.of_nat (length rest) =? wrap (cap - 1)
  then [NotifyOne NotFullCond] else [].

Definition not_empty_signal (was_empty : bool) : list event :=
  if was_empty then [NotifyOne NotEmptyCond] else [].

(** How one completed call changes the state. *)
Inductive effect (q : thqueue) : call -> reply -> thqueue -> Prop :=
| eff_none c r :
    is_set_capacity c = false ->
    effect q c r q
| eff_capacity cap :
    effect q (CSetCapacity cap) RVoid (mk_thqueue cap (m_queue q))
| eff_insert c r val :
    is_set_capacity c = false ->
    queue_length q < m_capacity q ->
    effect q c r (mk_thqueue (m_capacity q) (m_queue q ++ [val]))
| eff_remove c r x rest :
    is_set_capacity c = false ->
    m_queue q = x :: rest ->
    removed_one r = 1%nat ->
    effect q c r (mk_thqueue (m_capacity q) rest).

(** The capacity bound as a property of the fields *)
Definition within_capacity (q : thqueue) : Prop :=
  0 <= queue_length q <= m_capacity q.

(** Notifications of a row of insertions: only the first one can find the
    queue empty. *)
Definition first_insert_signal (xs : list T) (q : thqueue) : list event :=
  match xs with
  | [] => []
  | _ :: _ => not_empty_signal (queue_is_empty q)
  end.

(** *** Items that went in and came out *)

(** The item a completed call placed in the queue, if any. *)
Definition inserted_by (c : call) (r : reply) : list T :=
  match c, r with
  | CPut val, RVoid => [val]
  | CTryPut val, RBool true => [val]
  | _, _ => []
  end.

(** The item a completed call handed to its caller, if any. *)
Definition taken_by (r : reply) : list T :=
  match r with
  | RValue v => [v]
  | RSlot v => [v]
  | RBoolSlot true v => [v]
  | _ => []
  end.

Fixpoint inserted (cs : list call) (rs : list reply) : list T :=
  match cs, rs with
  | c :: cs', r :: rs' => inserted_by c r ++ inserted cs' rs'
  | _, _ => []
  end.

Definition taken (rs : list reply) : list T := flat_map taken_by rs.

End Queue.

Arguments mk_thqueue {T} m_capacity m_queue.
Arguments thqueue_default {T}.
Arguments thqueue_cap {T} cap.
Arguments empty {T}.
Arguments capacity {T}.
Arguments capacity_set {T} cap.
Arguments size {T}.
Arguments get {T}.
Arguments CEmpty {T}.
Arguments CCapacity {T}.
Arguments CSetCapacity {T} cap.
Arguments CSize {T}.
Arguments CGet {T}.
Arguments RVoid {T}.
Arguments RBool {T} b.
Arguments RSize {T} n.
Arguments any_call {T} q c.
Arguments reachable {T} q.

(** ** The queue of [main.cpp]: [thqueue<std::string>] *)

Import String.StringSyntax.
Open Scope string_scope.

(** Scenario 1 of the specification *)
Definition scenario_1 : list (call String.string) :=
  [CPut "a"; CPut "b"; CTryPut "c"; CGet; CTryPut "c"; CGet; CGet].

(** *** The threads of [main.cpp] *)

(** [thqueue<std::string> q(1000);] *)
Definition q_main : thqueue String.string := thqueue_cap 1000.

(** One pass through the loop of [producer_thread]:
    [q.try_put(getdata());] with [data] the string [getdata()] returned;
    the flag [try_put] returns is dropped. *)
Definition producer_iteration (data : String.string)
  : M (thqueue String.string) unit :=
  try_put data ;; ret tt.

(** What one pass through the loop of [consumer_thread] does next. *)
Inductive consumer_action : Type :=
| Printed (data : String.string)   (* got an item and printed it *)
| Again                            (* nothing there, [stop] not set *)
| Stopped.                         (* nothing there, [stop] set: [break] *)

(** One pass through the loop of [consumer_thread]:
    [std::string data; if (q.try_get(&data)) { ... } else { if (stop) break; }]
    with [stop] the value the atomic flag has when it is read. *)
Definition consumer_iteration (stop : bool)
  : M (thqueue String.string) consumer_action :=
  let data := String.EmptyString in
  r <- try_get data ;;
  if fst r then ret (Printed (snd r))
  else if stop then ret Stopped else ret Again.

(** States of [q] while the threads of [main] run: any interleaving of
    passes of the producers and of the consumer. *)
Inductive main_reachable : thqueue String.string -> Prop :=
| main_start : main_reachable q_main
| main_producer (data : String.string) (q q' : thqueue String.string)
                (evs : list event) :
    main_reachable q ->
    producer_iteration data q = Done tt q' evs ->
    main_reachable q'
| main_consumer (stop : bool) (a : consumer_action)
                (q q' : thqueue String.string) (evs : list event) :
    main_reachable q ->
    consumer_iteration stop q = Done a q' evs ->
    main_reachable q'.

(** Builds [reachable_by allowed q'] from the state [q] before the call [c]. *)
Ltac after_call q c :=
  apply (@reach_call _ _ q c) with (r := ltac:(
           let v := eval vm_compute in (exec c q) in
           match v with Done ?r _ _ => exact r end))
         (evs := ltac:(
           let v := eval vm_compute in (exec c q) in
           match v with Done _ _ ?evs => exact evs end));
  [ | first [ exact I | cbv; split; discriminate ]
    | first [ exact I | cbv; discriminate ]
    | vm_compute; reflexivity ].


(** * Properties *)

(** ** [size_type] facts *)

Lemma SIZE_MODULUS_value : SIZE_MODULUS = 18446744073709551616.
Proof. reflexivity. Qed.

Lemma MAX_CAPACITY_value : MAX_CAPACITY = 18446744073709551615.
Proof. reflexivity. Qed.

Lemma is_size_type_max (cap : Z) :
  is_size_type cap -> is_size_type (Z.max cap 1).
Proof.
  unfold is_size_type. rewrite MAX_CAPACITY_value. lia.
Qed.

(** ** The monad *)

Lemma bind_Done {S A B : Type} (m : M S A) (k : A -> M S B)
      (s s2 : S) (b : B) (evs : list event) :
  bind m k s = Done b s2 evs ->
  exists a s1 evs1 evs2,
    m s = Done a s1 evs1 /\ k a s1 = Done b s2 evs2 /\ evs = evs1 ++ evs2.
Proof.
  unfold bind. intros H.
  destruct (m s) as [a s1 evs1 | c | ]; try discriminate.
  destruct (k a s1) as [b' s2' evs2 | c | ] eqn:Hk; try discriminate.
  inversion H; subst. exists a, s1, evs1, evs2. auto.
Qed.

Lemma bind_ret_Done {S A B : Type} (m : M S A) (f : A -> B)
      (s s2 : S) (b : B) (evs : list event) :
  bind m (fun a => ret (f a)) s = Done b s2 evs ->
  exists a, m s = Done a s2 evs /\ b = f a.
Proof.
  intros H. apply bind_Done in H.
  destruct H as (a & s1 & evs1 & evs2 & Hm & Hk & ->).
  unfold ret in Hk. inversion Hk; subst.
  exists a. rewrite app_nil_r. auto.
Qed.

(** ** Closed forms of the member functions *)

Section Closed_forms.

Variable T : Type.
Implicit Types (q : thqueue T) (val slot : T).

Lemma queue_length_nonneg q : 0 <= queue_length q.
Proof. unfold queue_length. lia. Qed.

Lemma queue_is_empty_length q :
  queue_is_empty q = (queue_length q =? 0).
Proof.
  unfold queue_is_empty, queue_length.
  destruct (m_queue q); reflexivity.
Qed.

Lemma put_eq val q :
  put val q =
    if queue_length q <? m_capacity q
    then Done tt (mk_thqueue (m_capacity q) (m_queue q ++ [val]))
              (not_empty_signal (queue_is_empty q))
    else Blocked NotFullCond.
Proof.
  unfold put, bind, queue_size, read_capacity, when, wait, queue_empty,
    queue_emplace, notify_one, ret, not_empty_signal.
  rewrite Z.geb_leb.
  destruct (Z.leb_spec (m_capacity q) (queue_length q)) as [Hle | Hlt];
    destruct (Z.ltb_spec (queue_length q) (m_capacity q)) as [Hlt' | Hle'];
    try lia; try reflexivity.
  all: destruct (queue_is_empty q); reflexivity.
Qed.

Lemma try_put_eq val q :
  try_put val q =
    if queue_length q <? m_capacity q
    then Done true (mk_thqueue (m_capacity q) (m_queue q ++ [val]))
              (not_empty_signal (queue_is_empty q))
    else Done false q [].
Proof.
  unfold try_put, bind, queue_size, read_capacity, when, queue_emplace,
    notify_one, ret, not_empty_signal.
  rewrite Z.geb_leb, queue_is_empty_length.
  destruct (Z.leb_spec (m_capacity q) (queue_length q)) as [Hle | Hlt];
    destruct (Z.ltb_spec (queue_length q) (m_capacity q)) as [Hlt' | Hle'];
    try lia; try reflexivity.
  destruct (queue_length q =? 0); reflexivity.
Qed.

Lemma get_eq q :
  get q =
    match m_queue q with
    | [] => Blocked NotEmptyCond
    | x :: rest =>
        Done x (mk_thqueue (m_capacity q) rest)
             (not_full_signal (m_capacity q) rest)
    end.
Proof.
  unfold get, bind, queue_empty, when, wait, queue_front, queue_pop,
    queue_size, read_capacity, notify_one, ret, not_full_signal,
    queue_is_empty, queue_length.
  destruct q as [cap [| x rest]]; cbn; [reflexivity |].
  destruct (Z.of_nat (length rest) =? wrap (cap - 1)); reflexivity.
Qed.

Lemma get_ptr_eq slot q :
  get_ptr slot q =
    match m_queue q with
    | [] => Blocked NotEmptyCond
    | x :: rest =>
        Done x (mk_thqueue (m_capacity q) rest)
             (not_full_signal (m_capacity q) rest)
    end.
Proof.
  unfold get_ptr, bind, queue_empty, when, wait, queue_front, queue_pop,
    queue_size, read_capacity, notify_one, ret, not_full_signal,
    queue_is_empty, queue_length.
  destruct q as [cap [| x rest]]; cbn; [reflexivity |].
  destruct (Z.of_nat (length rest) =? wrap (cap - 1)); reflexivity.
Qed.

Lemma try_get_eq slot q :
  try_get slot q =
    match m_queue q with
    | [] => Done (false, slot) q []
    | x :: rest =>
        Done (true, x) (mk_thqueue (m_capacity q) rest)
             (not_full_signal (m_capacity q) rest)
    end.
Proof.
  unfold try_get, bind, queue_empty, when, queue_front, queue_pop,
    queue_size, read_capacity, notify_one, ret, not_full_signal,
    queue_is_empty, queue_length.
  destruct q as [cap [| x rest]]; cbn; [reflexivity |].
  destruct (Z.of_nat (length rest) =? wrap (cap - 1)); reflexivity.
Qed.

(** No member function runs into [front()] or [pop()] on an empty
    container. *)
Lemma exec_defined (c : call T) q : exec c q <> Undefined.
Proof.
  destruct c; unfold exec, bind;
    rewrite ?put_eq, ?try_put_eq, ?get_eq, ?get_ptr_eq, ?try_get_eq;
    try (cbn; discriminate).
  - destruct (queue_length q <? m_capacity q); discriminate.
  - destruct (queue_length q <? m_capacity q); discriminate.
  - destruct (m_queue q); discriminate.
  - destruct (m_queue q); discriminate.
  - destruct (m_queue q); discriminate.
Qed.

End Closed_forms.

(** ** Effect of one completed call on the state *)

Section Steps.

Variable T : Type.
Implicit Types (q : thqueue T) (c : call T) (r : reply T).

Lemma exec_effect c q r q' evs :
  exec c q = Done r q' evs -> effect q c r q'.
Proof.
  intros H. destruct c; unfold exec in H; apply bind_ret_Done in H;
    destruct H as (a & H & ->).
  - inversion H; subst. now apply eff_none.
  - inversion H; subst. now apply eff_none.
  - inversion H; subst. apply eff_capacity.
  - inversion H; subst. now apply eff_none.
  - rewrite put_eq in H.
    destruct (Z.ltb_spec (queue_length q) (m_capacity q)); inversion H; subst.
    now apply eff_insert.
  - rewrite try_put_eq in H.
    destruct (Z.ltb_spec (queue_length q) (m_capacity q)); inversion H; subst.
    + now apply eff_insert.
    + now apply eff_none.
  - rewrite get_ptr_eq in H.
    destruct (m_queue q) as [| x rest] eqn:Hq; inversion H; subst.
    now apply eff_remove with (x := a).
  - rewrite get_eq in H.
    destruct (m_queue q) as [| x rest] eqn:Hq; inversion H; subst.
    now apply eff_remove with (x := a).
  - rewrite try_get_eq in H.
    destruct (m_queue q) as [| x rest] eqn:Hq; inversion H; subst.
    + now apply eff_none.
    + now apply eff_remove with (x := x).
Qed.

(** Calls other than [capacity(cap)] leave [m_capacity] alone and shorten
    the queue by no more than the items they hand out. *)
Lemma exec_keeps c q r q' evs :
  is_set_capacity c = false ->
  exec c q = Done r q' evs ->
  m_capacity q' = m_capacity q /\
  (length (m_queue q) <= length (m_queue q') + removed_one r)%nat.
Proof.
  intros Hc H. apply exec_effect in H.
  destruct H as [c r _ | cap | c r val _ _ | c r x rest _ Hq Hr]; cbn.
  - lia.
  - discriminate.
  - rewrite length_app. cbn. lia.
  - rewrite Hq, Hr. cbn. lia.
Qed.

Lemma run_keeps (cs : list (call T)) :
  forall q rs q' evs,
    forallb (fun c => negb (is_set_capacity c)) cs = true ->
    run cs q = Done rs q' evs ->
    m_capacity q' = m_capacity q /\
    (length (m_queue q) <= length (m_queue q') + removed rs)%nat.
Proof.
  induction cs as [| c cs IH]; intros q rs q' evs Hcs H.
  - inversion H; subst. cbn. lia.
  - cbn in Hcs. apply andb_true_iff in Hcs. destruct Hcs as [Hc Hcs].
    apply negb_true_iff in Hc.
    cbn [run] in H. apply bind_Done in H.
    destruct H as (r & q1 & evs1 & evs2 & Hexec & H & ->).
    apply bind_ret_Done in H. destruct H as (rs' & Hrun & ->).
    destruct (exec_keeps _ _ Hc Hexec) as [Hcap Hlen].
    destruct (IH _ _ _ _ Hcs Hrun) as [Hcap' Hlen'].
    unfold removed in *. cbn [fold_right]. split; [congruence | lia].
Qed.

Lemma within_capacity_size q :
  within_capacity q -> size_within_capacity q.
Proof.
  intros H. exists (queue_length q), (m_capacity q). auto.
Qed.

Lemma reachable_within_capacity q :
  reachable_by (@no_shrink_below_size T) q -> within_capacity q.
Proof.
  induction 1 as [| cap Hcap | q c r q' evs _ IH _ Hallowed Hexec];
    unfold within_capacity in *.
  - cbn. rewrite MAX_CAPACITY_value. lia.
  - cbn. lia.
  - apply exec_effect in Hexec.
    destruct Hexec as [c r _ | cap | c r val _ Hlt | c r x rest _ Hq _];
      cbn in *; unfold queue_length in *; cbn in *.
    + exact IH.
    + lia.
    + rewrite length_app. cbn. lia.
    + rewrite Hq in IH. cbn [length] in IH. lia.
Qed.

Lemma reachable_capacity_positive q :
  reachable_by (@positive_capacity T) q -> 1 <= m_capacity q.
Proof.
  induction 1 as [| cap Hcap | q c r q' evs _ IH _ Hallowed Hexec].
  - cbn. rewrite MAX_CAPACITY_value. lia.
  - cbn. lia.
  - apply exec_effect in Hexec.
    destruct Hexec as [c r _ | cap | c r val _ Hlt | c r x rest _ Hq _];
      cbn in *; assumption.
Qed.

End Steps.

(** * Claims *)

(** ** Capacity bound *)

(** C1, as amended: in every state reached from a constructor by calls in
    which [capacity(cap)] is only made with [cap] at least the current size,
    [size()] and [capacity()] report [0 <= size <= capacity]. *)
Theorem size_within_capacity_unless_lowered (T : Type) (q : thqueue T) :
  reachable_by (@no_shrink_below_size T) q -> size_within_capacity q.
Proof.
  intros H. apply within_capacity_size, reachable_within_capacity, H.
Qed.

Lemma size_within_capacity_unless_lowered_witness :
  reachable_by (@no_shrink_below_size String.string) (mk_thqueue 3 ["a"; "b"]) /\
  size_within_capacity (mk_thqueue 3 ["a"; "b"]).
Proof.
  assert (H : reachable_by (@no_shrink_below_size String.string)
                (mk_thqueue 3 ["a"; "b"])).
  { after_call (mk_thqueue 2 ["a"; "b"]) (@CSetCapacity String.string 3).
    after_call (mk_thqueue 2 ["a"]) (CPut "b").
    after_call (@thqueue_cap String.string 2) (CPut "a").
    apply reach_cap. cbv. split; discriminate. }
  split; [exact H | exact (size_within_capacity_unless_lowered H)].
Defined.

(** C1 as stated fails: [thqueue q(2); q.put("a"); q.put("b");
    q.capacity(1);] ends with size 2 above capacity 1. *)
Lemma size_exceeds_lowered_capacity :
  ~ (forall q : thqueue String.string, reachable q -> size_within_capacity q).
Proof.
  intros Hall.
  assert (H : reachable (mk_thqueue 1 ["a"; "b"])).
  { unfold reachable.
    after_call (mk_thqueue 2 ["a"; "b"]) (@CSetCapacity String.string 1).
    after_call (mk_thqueue 2 ["a"]) (CPut "b").
    after_call (@thqueue_cap String.string 2) (CPut "a").
    apply reach_cap. cbv. split; discriminate. }
  destruct (Hall _ H) as (n & cap & Hn & Hcap & Hb).
  inversion Hn; inversion Hcap; subst. cbn in Hb. lia.
Qed.

(** ** Scenario 1 *)

(** C2: on [thqueue q(2)] the calls [put("a"); put("b"); try_put("c");
    get(); try_put("c"); get(); get()] all complete, none parks, and they
    return false, "a", true, "b", "c" in that order. *)
Theorem scenario_1_replies :
  run scenario_1 (thqueue_cap 2) =
    Done [RVoid; RVoid; RBool false; RValue "a"; RBool true;
          RValue "b"; RValue "c"]
         (mk_thqueue 2 [])
         [NotifyOne NotEmptyCond; NotifyOne NotFullCond;
          NotifyOne NotFullCond].
Proof. vm_compute. reflexivity. Qed.

(** ** Rejections *)

(** The body followed with its parameter is the body of [try_put]: same
    flag, same queue, same notifications, in every state; the parameter is
    untouched exactly when the flag is false. *)
Lemma try_put_val_agrees (T : Type) (q : thqueue T) (val : T) :
  exists (b : bool) (q' : thqueue T) (evs : list event),
    try_put val q = Done b q' evs /\
    try_put_val val q =
      Done (b, if b then PassedToEmplace T else Untouched val) q' evs.
Proof.
  unfold try_put, try_put_val, bind, queue_size, read_capacity, ret.
  destruct (queue_length q >=? m_capacity q); cbn.
  - exists false, q, []. auto.
  - destruct (queue_length q =? 0); cbn; eauto.
Qed.



(** C4: on an empty queue [try_get(&slot)] returns false, leaves the queue
    and [slot] as they were, and [size()] is 0 before and after. *)
Theorem try_get_empty_rejects (T : Type) (q : thqueue T) (slot : T) :
  m_queue q = [] ->
  try_get slot q = Done (false, slot) q [] /\
  size q = Done 0 q [] /\
  (try_get slot ;; size) q = Done 0 q [].
Proof.
  intros Hq.
  assert (H : try_get slot q = Done (false, slot) q []).
  { rewrite try_get_eq, Hq. reflexivity. }
  assert (Hs : size q = Done 0 q []).
  { unfold size, queue_size, queue_length. rewrite Hq. reflexivity. }
  unfold bind. rewrite H, Hs. auto.
Qed.

Lemma try_get_empty_rejects_witness :
  try_get "old" (mk_thqueue 1000 []) = Done (false, "old") (mk_thqueue 1000 []) [].
Proof.
  exact (proj1 (try_get_empty_rejects (mk_thqueue 1000 []) "old" eq_refl)).
Defined.

(** ** Capacity *)

(** C5: [thqueue(cap)] always yields a queue, empty and of capacity
    [max(cap, 1)], itself a [size_type]; [thqueue(0)] has capacity 1. *)
Theorem thqueue_cap_clamps (T : Type) (cap : Z) :
  is_size_type cap ->
  capacity (@thqueue_cap T cap) = Done (Z.max cap 1) (thqueue_cap cap) [] /\
  is_size_type (Z.max cap 1) /\
  m_queue (@thqueue_cap T cap) = [] /\
  capacity (@thqueue_cap T 0) = Done 1 (thqueue_cap 0) [].
Proof.
  intros Hcap. repeat split; try reflexivity;
    apply is_size_type_max in Hcap; apply Hcap.
Qed.

Lemma thqueue_cap_clamps_witness :
  is_size_type 1000 /\
  capacity (@thqueue_cap String.string 1000) = Done 1000 (thqueue_cap 1000) [].
Proof.
  assert (H : is_size_type 1000) by (cbv; split; discriminate).
  split; [exact H | exact (proj1 (thqueue_cap_clamps String.string H))].
Defined.

(** C6: [capacity(cap)] stores [cap] as it is, keeps the items and so the
    size, and sends no notification (the event list is empty). *)
Theorem capacity_set_frame (T : Type) (q : thqueue T) (cap : Z) :
  capacity_set cap q = Done tt (mk_thqueue cap (m_queue q)) [] /\
  (capacity_set cap ;; capacity) q = Done cap (mk_thqueue cap (m_queue q)) [] /\
  (capacity_set cap ;; size) q =
    Done (queue_length q) (mk_thqueue cap (m_queue q)) [].
Proof. repeat split. Qed.

(** C7, as amended: in every state reached from a constructor by calls in
    which [capacity(cap)] is only made with [1 <= cap], [capacity()] reports
    at least 1. *)
Theorem capacity_positive_unless_set_lower (T : Type) (q : thqueue T) :
  reachable_by (@positive_capacity T) q -> capacity_positive q.
Proof.
  intros H. exists (m_capacity q).
  split; [reflexivity | apply reachable_capacity_positive, H].
Qed.

Lemma capacity_positive_unless_set_lower_witness :
  reachable_by (@positive_capacity String.string) (mk_thqueue 1 ["a"; "b"]) /\
  capacity_positive (mk_thqueue 1 ["a"; "b"]).
Proof.
  assert (H : reachable_by (@positive_capacity String.string)
                (mk_thqueue 1 ["a"; "b"])).
  { after_call (mk_thqueue 2 ["a"; "b"]) (@CSetCapacity String.string 1).
    after_call (mk_thqueue 2 ["a"]) (CTryPut "b").
    after_call (@thqueue_cap String.string 2) (CPut "a").
    apply reach_cap. cbv. split; discriminate. }
  split; [exact H | exact (capacity_positive_unless_set_lower H)].
Defined.

(** C7 as stated fails: [thqueue q(1); q.capacity(0);] leaves capacity 0. *)
Lemma capacity_zero_reachable :
  ~ (forall q : thqueue String.string, reachable q -> capacity_positive q).
Proof.
  intros Hall.
  assert (H : reachable (@mk_thqueue String.string 0 [])).
  { unfold reachable.
    after_call (@thqueue_cap String.string 1) (@CSetCapacity String.string 0).
    apply reach_cap. cbv. split; discriminate. }
  destruct (Hall _ H) as (cap & Hcap & Hb).
  inversion Hcap; subst. cbn in Hb. lia.
Qed.

(** ** Lowering the capacity *)

(** C8: [capacity(cap)] never drops an item; from three items,
    [capacity(1)] leaves [size()] at 3, and after any further calls that
    are not [capacity(cap)] and have handed out fewer than two items,
    [try_put] still returns false. *)
Theorem lowering_capacity_keeps_items
        (T : Type) (q q' : thqueue T) (cs : list (call T))
        (rs : list (reply T)) (evs : list event) (val : T) :
  length (m_queue q) = 3%nat ->
  forallb (fun c => negb (is_set_capacity c)) cs = true ->
  run (CSetCapacity 1 :: cs) q = Done rs q' evs ->
  (removed rs < 2)%nat ->
  (forall cap, capacity_set cap q = Done tt (mk_thqueue cap (m_queue q)) []) /\
  (capacity_set 1 ;; size) q = Done 3 (mk_thqueue 1 (m_queue q)) [] /\
  try_put val q' = Done false q' [].
Proof.
  intros Hlen Hcs Hrun Hrem.
  split; [reflexivity |]. split.
  { unfold bind, capacity_set, write_capacity, size, queue_size, queue_length.
    cbn. rewrite Hlen. reflexivity. }
  cbn [run] in Hrun. apply bind_Done in Hrun.
  destruct Hrun as (r & q1 & evs1 & evs2 & Hexec & Hrun & ->).
  apply bind_ret_Done in Hrun. destruct Hrun as (rs' & Hrun & ->).
  inversion Hexec; subst; clear Hexec.
  destruct (run_keeps _ _ Hcs Hrun) as [Hcap Hkeep].
  cbn in Hcap, Hkeep. unfold removed in Hrem. cbn in Hrem.
  fold (removed rs') in Hrem.
  rewrite try_put_eq.
  destruct (Z.ltb_spec (queue_length q') (m_capacity q')) as [Hlt | _];
    [| reflexivity].
  unfold queue_length in Hlt. lia.
Qed.

Lemma lowering_capacity_keeps_items_witness :
  try_put "e" (mk_thqueue 1 ["b"; "c"]) = Done false (mk_thqueue 1 ["b"; "c"]) [].
Proof.
  refine (proj2 (proj2
    (@lowering_capacity_keeps_items String.string
       (mk_thqueue 5 ["a"; "b"; "c"]) (mk_thqueue 1 ["b"; "c"])
       [CTryPut "d"; CGet; CSize]
       [RVoid; RBool false; RValue "a"; RSize 2]
       [] "e" eq_refl eq_refl eq_refl _))).
  cbv. apply le_n.
Defined.

(** ** The two forms of [get] *)

(** C9: on a non-empty queue [get(&slot)] and [get()] take the same head
    item, leave the same queue and send the same notification; the item
    reaches the caller in [slot] in one and as the return value in the
    other. *)
Theorem get_forms_agree (T : Type) (q : thqueue T) (slot : T) :
  m_queue q <> [] ->
  exists (x : T) (rest : list T),
    m_queue q = x :: rest /\
    get q = Done x (mk_thqueue (m_capacity q) rest)
                 (not_full_signal (m_capacity q) rest) /\
    get_ptr slot q = Done x (mk_thqueue (m_capacity q) rest)
                          (not_full_signal (m_capacity q) rest) /\
    exec CGet q = Done (RValue x) (mk_thqueue (m_capacity q) rest)
                       (not_full_signal (m_capacity q) rest) /\
    exec (CGetPtr slot) q = Done (RSlot x) (mk_thqueue (m_capacity q) rest)
                                 (not_full_signal (m_capacity q) rest).
Proof.
  intros Hne. destruct (m_queue q) as [| x rest] eqn:Hq; [contradiction |].
  exists x, rest.
  assert (Hg : get q = Done x (mk_thqueue (m_capacity q) rest)
                            (not_full_signal (m_capacity q) rest)).
  { rewrite get_eq, Hq. reflexivity. }
  assert (Hp : get_ptr slot q = Done x (mk_thqueue (m_capacity q) rest)
                                     (not_full_signal (m_capacity q) rest)).
  { rewrite get_ptr_eq, Hq. reflexivity. }
  repeat split; try assumption.
  - unfold exec, bind. rewrite Hg. cbn. rewrite app_nil_r. reflexivity.
  - unfold exec, bind. rewrite Hp. cbn. rewrite app_nil_r. reflexivity.
Qed.

Lemma get_forms_agree_witness :
  exists (x : String.string) (rest : list String.string),
    m_queue (mk_thqueue 2 ["a"; "b"]) = x :: rest /\
    get (mk_thqueue 2 ["a"; "b"]) =
      Done x (mk_thqueue 2 rest) (not_full_signal 2 rest) /\
    get_ptr "old" (mk_thqueue 2 ["a"; "b"]) =
      Done x (mk_thqueue 2 rest) (not_full_signal 2 rest) /\
    exec CGet (mk_thqueue 2 ["a"; "b"]) =
      Done (RValue x) (mk_thqueue 2 rest) (not_full_signal 2 rest) /\
    exec (CGetPtr "old") (mk_thqueue 2 ["a"; "b"]) =
      Done (RSlot x) (mk_thqueue 2 rest) (not_full_signal 2 rest).
Proof.
  apply (@get_forms_agree String.string (mk_thqueue 2 ["a"; "b"]) "old").
  discriminate.
Defined.

(** ** Capacity zero *)

(** C10: once [capacity(0)] has been called, in whatever state, and until
    the capacity is set again, [try_put] returns false and changes nothing:
    [size >= 0] always holds. *)
Theorem try_put_after_capacity_zero
        (T : Type) (q q' : thqueue T) (cs : list (call T))
        (rs : list (reply T)) (evs : list event) (val : T) :
  forallb (fun c => negb (is_set_capacity c)) cs = true ->
  run (CSetCapacity 0 :: cs) q = Done rs q' evs ->
  (capacity_set 0 ;; try_put val) q =
    Done false (mk_thqueue 0 (m_queue q)) [] /\
  try_put val (@mk_thqueue T 0 []) = Done false (mk_thqueue 0 []) [] /\
  try_put val q' = Done false q' [].
Proof.
  intros Hcs Hrun.
  assert (Hzero : forall s : thqueue T,
             m_capacity s = 0 -> try_put val s = Done false s []).
  { intros s Hs. rewrite try_put_eq, Hs.
    destruct (Z.ltb_spec (queue_length s) 0) as [Hlt | _]; [| reflexivity].
    pose proof (queue_length_nonneg s). lia. }
  split; [| split].
  - unfold bind, capacity_set, write_capacity.
    rewrite (Hzero (mk_thqueue 0 (m_queue q)) eq_refl). reflexivity.
  - apply Hzero. reflexivity.
  - cbn [run] in Hrun. apply bind_Done in Hrun.
    destruct Hrun as (r & q1 & evs1 & evs2 & Hexec & Hrun & ->).
    apply bind_ret_Done in Hrun. destruct Hrun as (rs' & Hrun & ->).
    inversion Hexec; subst; clear Hexec.
    destruct (run_keeps _ _ Hcs Hrun) as [Hcap _].
    apply Hzero. exact Hcap.
Qed.

Lemma try_put_after_capacity_zero_witness :
  try_put "c" (@mk_thqueue String.string 0 []) = Done false (mk_thqueue 0 []) [].
Proof.
  exact (proj2 (proj2
    (@try_put_after_capacity_zero String.string
       (mk_thqueue 2 ["a"]) (mk_thqueue 0 [])
       [CTryPut "b"; CGet]
       [RVoid; RBool false; RValue "a"]
       [] "c" eq_refl eq_refl))).
Defined.

(** * Further properties of the queue *)

Section Order.

Variable T : Type.
Implicit Types (q : thqueue T) (c : call T) (r : reply T) (val slot : T).

Lemma exec_conserves c q r q' evs :
  exec c q = Done r q' evs ->
  m_queue q ++ inserted_by c r = taken_by r ++ m_queue q'.
Proof.
  intros H. destruct c; unfold exec in H; apply bind_ret_Done in H;
    destruct H as (a & H & ->).
  - inversion H; subst. cbn. apply app_nil_r.
  - inversion H; subst. cbn. apply app_nil_r.
  - inversion H; subst. cbn. apply app_nil_r.
  - inversion H; subst. cbn. apply app_nil_r.
  - rewrite put_eq in H.
    destruct (queue_length q <? m_capacity q); inversion H; subst.
    reflexivity.
  - rewrite try_put_eq in H.
    destruct (queue_length q <? m_capacity q); inversion H; subst.
    + reflexivity.
    + cbn. apply app_nil_r.
  - rewrite get_ptr_eq in H.
    destruct (m_queue q) as [| x rest] eqn:Hq; inversion H; subst.
    cbn. rewrite app_nil_r. reflexivity.
  - rewrite get_eq in H.
    destruct (m_queue q) as [| x rest] eqn:Hq; inversion H; subst.
    cbn. rewrite app_nil_r. reflexivity.
  - rewrite try_get_eq in H.
    destruct (m_queue q) as [| x rest] eqn:Hq; inversion H; subst; cbn.
    + rewrite Hq. reflexivity.
    + rewrite app_nil_r. reflexivity.
Qed.

(** X1: first in, first out, nothing lost and nothing doubled.  For every
    completed sequence of calls, the items in the queue at the start
    followed by the items inserted, in call order, are the items handed
    out, in call order, followed by the items left in the queue. *)
Theorem run_conserves_items (cs : list (call T)) (q q' : thqueue T)
        (rs : list (reply T)) (evs : list event) :
  run cs q = Done rs q' evs ->
  m_queue q ++ inserted cs rs = taken rs ++ m_queue q'.
Proof.
  revert q rs evs. induction cs as [| c cs IH]; intros q rs evs H.
  - inversion H; subst. cbn. apply app_nil_r.
  - cbn [run] in H. apply bind_Done in H.
    destruct H as (r & q1 & evs1 & evs2 & Hexec & H & ->).
    apply bind_ret_Done in H. destruct H as (rs' & Hrun & ->).
    apply exec_conserves in Hexec. apply IH in Hrun.
    unfold taken in *. cbn [inserted flat_map].
    rewrite app_assoc, Hexec, <- !app_assoc, Hrun. reflexivity.
Qed.

Lemma run_app (cs1 cs2 : list (call T)) :
  forall q q1 q2 rs1 rs2 evs1 evs2,
    run cs1 q = Done rs1 q1 evs1 ->
    run cs2 q1 = Done rs2 q2 evs2 ->
    run (cs1 ++ cs2) q = Done (rs1 ++ rs2) q2 (evs1 ++ evs2).
Proof.
  induction cs1 as [| c cs1 IH]; intros q q1 q2 rs1 rs2 evs1 evs2 H1 H2.
  - inversion H1; subst. exact H2.
  - cbn [run] in H1. apply bind_Done in H1.
    destruct H1 as (r & q0 & e1 & e2 & Hexec & H1 & ->).
    apply bind_ret_Done in H1. destruct H1 as (rs' & Hrun & ->).
    cbn [app run]. unfold bind at 1. rewrite Hexec.
    unfold bind at 1. rewrite (IH _ _ _ _ _ _ _ Hrun H2).
    cbn. rewrite !app_nil_r, app_assoc. reflexivity.
Qed.

Lemma queue_is_empty_app q val :
  queue_is_empty (mk_thqueue (m_capacity q) (m_queue q ++ [val])) = false.
Proof.
  unfold queue_is_empty. cbn. destruct (m_queue q); reflexivity.
Qed.

Lemma run_puts (xs : list T) :
  forall q,
    queue_length q + Z.of_nat (length xs) <= m_capacity q ->
    run (map (@CPut T) xs) q =
      Done (map (fun _ => RVoid) xs)
           (mk_thqueue (m_capacity q) (m_queue q ++ xs))
           (first_insert_signal xs q).
Proof.
  induction xs as [| x xs IH]; intros q Hroom.
  - cbn. rewrite app_nil_r. destruct q; reflexivity.
  - cbn [map run]. unfold bind at 1. unfold exec, bind at 1.
    rewrite put_eq.
    cbn [length] in Hroom.
    destruct (Z.ltb_spec (queue_length q) (m_capacity q)) as [_ | Hge];
      [| lia].
    cbn [ret].
    set (q1 := mk_thqueue (m_capacity q) (m_queue q ++ [x])).
    assert (Hroom1 : queue_length q1 + Z.of_nat (length xs) <= m_capacity q1).
    { unfold q1, queue_length in *. cbn. rewrite length_app. cbn. lia. }
    unfold bind. rewrite (IH q1 Hroom1). cbn [m_capacity m_queue q1].
    rewrite <- app_assoc. cbn [app].
    replace (first_insert_signal xs q1) with (@nil event).
    + cbn. rewrite !app_nil_r. reflexivity.
    + unfold first_insert_signal. destruct xs; [reflexivity |].
      unfold q1. rewrite queue_is_empty_app. reflexivity.
Qed.

Lemma run_gets (xs : list T) :
  forall q rest,
    m_queue q = xs ++ rest ->
    exists evs,
      run (repeat CGet (length xs)) q =
        Done (map (@RValue T) xs) (mk_thqueue (m_capacity q) rest) evs.
Proof.
  induction xs as [| x xs IH]; intros q rest Hq.
  - exists []. cbn in *. destruct q; cbn in *; subst. reflexivity.
  - cbn [length repeat run].
    destruct (IH (mk_thqueue (m_capacity q) (xs ++ rest)) rest eq_refl)
      as (evs & Hrun).
    exists (not_full_signal (m_capacity q) (xs ++ rest) ++ evs).
    unfold bind at 1. unfold exec, bind at 1. rewrite get_eq, Hq.
    cbn [app ret]. unfold bind. rewrite Hrun. cbn.
    rewrite !app_nil_r. reflexivity.
Qed.

End Order.

Lemma run_conserves_items_witness :
  ["a"] ++ ["b"; "c"] = ["a"; "b"] ++ ["c"].
Proof.
  exact (@run_conserves_items String.string
           [CPut "b"; CGet; CTryPut "c"; CTryPut "d"; CTryGet "old"]
           (mk_thqueue 2 ["a"]) (mk_thqueue 2 ["c"])
           [RVoid; RValue "a"; RBool true; RBool false; RBoolSlot true "b"]
           [NotifyOne NotFullCond; NotifyOne NotFullCond]
           eq_refl).
Defined.

(** X2: round trip in order.  When the items [xs] fit beside what the queue
    holds, [put]ting them one after the other and then calling [get()] once
    per item held completes without parking and returns the old items
    first, then [xs], each once and in insertion order, leaving the queue
    empty. *)
Theorem put_all_then_get_all (T : Type) (q : thqueue T) (xs : list T) :
  queue_length q + Z.of_nat (length xs) <= m_capacity q ->
  exists evs,
    run (map (@CPut T) xs ++ repeat CGet (length (m_queue q ++ xs))) q =
      Done (map (fun _ => RVoid) xs ++ map (@RValue T) (m_queue q ++ xs))
           (mk_thqueue (m_capacity q) []) evs.
Proof.
  intros Hroom.
  pose proof (run_puts xs q Hroom) as Hputs.
  destruct (@run_gets T (m_queue q ++ xs)
              (mk_thqueue (m_capacity q) (m_queue q ++ xs)) []
              (eq_sym (app_nil_r _))) as (evs & Hgets).
  exists (first_insert_signal xs q ++ evs).
  exact (run_app _ _ _ Hputs Hgets).
Qed.

Lemma put_all_then_get_all_witness :
  exists evs,
    run [CPut "b"; CPut "c"; CGet; CGet; CGet] (mk_thqueue 3 ["a"]) =
      Done [RVoid; RVoid; RValue "a"; RValue "b"; RValue "c"]
           (mk_thqueue 3 []) evs.
Proof.
  refine (@put_all_then_get_all String.string (mk_thqueue 3 ["a"])
            ["b"; "c"] _).
  cbv. discriminate.
Defined.

(** X3: as long as the items fit, every [try_put] of a row returns true and
    the items are appended in order; only the first can notify, and does so
    exactly when the queue was empty.  On the default queue this holds for
    any row of at most [MAX_CAPACITY] items. *)
Theorem try_put_row_accepted (T : Type) (q : thqueue T) (xs : list T) :
  queue_length q + Z.of_nat (length xs) <= m_capacity q ->
  run (map (@CTryPut T) xs) q =
    Done (map (fun _ => RBool true) xs)
         (mk_thqueue (m_capacity q) (m_queue q ++ xs))
         (first_insert_signal xs q).
Proof.
  revert q. induction xs as [| x xs IH]; intros q Hroom.
  - cbn. rewrite app_nil_r. destruct q; reflexivity.
  - cbn [map run]. unfold bind at 1. unfold exec, bind at 1.
    rewrite try_put_eq.
    cbn [length] in Hroom.
    destruct (Z.ltb_spec (queue_length q) (m_capacity q)) as [_ | Hge];
      [| lia].
    cbn [ret].
    set (q1 := mk_thqueue (m_capacity q) (m_queue q ++ [x])).
    assert (Hroom1 : queue_length q1 + Z.of_nat (length xs) <= m_capacity q1).
    { unfold q1, queue_length in *. cbn. rewrite length_app. cbn. lia. }
    unfold bind. rewrite (IH q1 Hroom1). cbn [m_capacity m_queue q1].
    rewrite <- app_assoc. cbn [app].
    replace (first_insert_signal xs q1) with (@nil event).
    + cbn. rewrite !app_nil_r. reflexivity.
    + unfold first_insert_signal. destruct xs; [reflexivity |].
      unfold q1. rewrite queue_is_empty_app. reflexivity.
Qed.

Lemma try_put_row_accepted_witness :
  run [CTryPut "a"; CTryPut "b"; CTryPut "c"] thqueue_default =
    Done [RBool true; RBool true; RBool true]
         (mk_thqueue MAX_CAPACITY ["a"; "b"; "c"])
         [NotifyOne NotEmptyCond].
Proof.
  refine (@try_put_row_accepted String.string thqueue_default
            ["a"; "b"; "c"] _).
  cbv. discriminate.
Defined.

(** ** Blocking and non-blocking forms *)

(** X4: with room ([size < capacity]) [put] and [try_put] do the same: the
    item goes to the back, the capacity is kept, the same notification is
    sent, and [try_put] reports true. *)
Theorem put_try_put_agree (T : Type) (q : thqueue T) (val : T) :
  queue_length q < m_capacity q ->
  exists (q' : thqueue T) (evs : list event),
    put val q = Done tt q' evs /\
    try_put val q = Done true q' evs /\
    m_queue q' = m_queue q ++ [val] /\
    m_capacity q' = m_capacity q.
Proof.
  intros Hroom.
  exists (mk_thqueue (m_capacity q) (m_queue q ++ [val])),
         (not_empty_signal (queue_is_empty q)).
  rewrite put_eq, try_put_eq.
  destruct (Z.ltb_spec (queue_length q) (m_capacity q)); [auto | lia].
Qed.

Lemma put_try_put_agree_witness :
  exists (q' : thqueue String.string) (evs : list event),
    put "b" (mk_thqueue 2 ["a"]) = Done tt q' evs /\
    try_put "b" (mk_thqueue 2 ["a"]) = Done true q' evs /\
    m_queue q' = ["a"] ++ ["b"] /\
    m_capacity q' = 2.
Proof.
  refine (@put_try_put_agree String.string (mk_thqueue 2 ["a"]) "b" _).
  cbv. reflexivity.
Defined.

(** X5: [put] parks exactly when [size >= capacity], always on
    [m_notFullCond], and never runs into undefined behaviour. *)
Theorem put_parks_iff_full (T : Type) (q : thqueue T) (val : T) :
  (put val q = Blocked NotFullCond <-> m_capacity q <= queue_length q) /\
  put val q <> Blocked NotEmptyCond /\
  put val q <> Undefined.
Proof.
  rewrite put_eq.
  destruct (Z.ltb_spec (queue_length q) (m_capacity q)) as [Hlt | Hge].
  - repeat split; try discriminate. lia.
  - repeat split; try discriminate. auto.
Qed.

Lemma put_parks_iff_full_witness :
  put "c" (mk_thqueue 1 ["a"; "b"]) = Blocked NotFullCond.
Proof.
  refine (proj2 (proj1 (@put_parks_iff_full String.string
                          (mk_thqueue 1 ["a"; "b"]) "c")) _).
  cbv. discriminate.
Defined.

(** X6: on a non-empty queue [try_get(&slot)] does what [get()] does: it
    reports true, [slot] receives the front item whatever it held, and the
    queue and the notification are those of [get()]. *)
Theorem try_get_get_agree (T : Type) (q : thqueue T) (slot : T) :
  m_queue q <> [] ->
  exists (x : T) (q' : thqueue T) (evs : list event),
    get q = Done x q' evs /\
    try_get slot q = Done (true, x) q' evs /\
    m_queue q = x :: m_queue q' /\
    m_capacity q' = m_capacity q.
Proof.
  intros Hne. destruct (m_queue q) as [| x rest] eqn:Hq; [contradiction |].
  exists x, (mk_thqueue (m_capacity q) rest),
         (not_full_signal (m_capacity q) rest).
  rewrite get_eq, try_get_eq, Hq. auto.
Qed.

Lemma try_get_get_agree_witness :
  exists (x : String.string) (q' : thqueue String.string) (evs : list event),
    get (mk_thqueue 2 ["a"; "b"]) = Done x q' evs /\
    try_get "old" (mk_thqueue 2 ["a"; "b"]) = Done (true, x) q' evs /\
    ["a"; "b"] = x :: m_queue q' /\
    m_capacity q' = 2.
Proof.
  refine (@try_get_get_agree String.string (mk_thqueue 2 ["a"; "b"]) "old" _).
  discriminate.
Defined.

(** X7: both forms of [get] park exactly when the queue is empty, always on
    [m_notEmptyCond]; [front()] and [pop()] are never reached on an empty
    container. *)
Theorem get_parks_iff_empty (T : Type) (q : thqueue T) (slot : T) :
  (get q = Blocked NotEmptyCond <-> m_queue q = []) /\
  (get_ptr slot q = Blocked NotEmptyCond <-> m_queue q = []) /\
  get q <> Blocked NotFullCond /\
  get_ptr slot q <> Blocked NotFullCond /\
  get q <> Undefined /\
  get_ptr slot q <> Undefined /\
  try_get slot q <> Undefined.
Proof.
  rewrite get_eq, get_ptr_eq, try_get_eq.
  destruct (m_queue q) as [| x rest].
  - repeat split; try discriminate; auto.
  - repeat split; try discriminate.
Qed.

Lemma get_parks_iff_empty_witness :
  get (@mk_thqueue String.string 5 []) = Blocked NotEmptyCond.
Proof.
  exact (proj2 (proj1 (@get_parks_iff_empty String.string
                         (mk_thqueue 5 []) "old")) eq_refl).
Defined.

(** X8: [empty()] reads without changing anything, and it returns true
    exactly when [size()] returns 0, which is exactly when [get()] would
    park and [try_get] would return false. *)
Theorem empty_agrees (T : Type) (q : thqueue T) (slot : T) :
  exists b : bool,
    empty q = Done b q [] /\
    (b = true <-> size q = Done 0 q []) /\
    (b = true <-> get q = Blocked NotEmptyCond) /\
    (b = true <-> try_get slot q = Done (false, slot) q []).
Proof.
  exists (queue_is_empty q). split; [reflexivity |].
  rewrite get_eq, try_get_eq.
  unfold size, queue_size, queue_is_empty, queue_length.
  destruct (m_queue q) as [| x rest]; cbn [length].
  - repeat split; reflexivity.
  - repeat split; intros H; discriminate H.
Qed.

(** ** Notifications *)

Lemma wrap_pred_capacity (cap : Z) :
  is_size_type cap ->
  wrap (cap - 1) = if cap =? 0 then MAX_CAPACITY else cap - 1.
Proof.
  unfold is_size_type. rewrite MAX_CAPACITY_value. intros Hcap.
  destruct (Z.eqb_spec cap 0) as [-> | Hnz]; [reflexivity |].
  unfold wrap. rewrite SIZE_MODULUS_value. apply Z.mod_small. lia.
Qed.

Lemma not_full_signal_cases (T : Type) (cap : Z) (x : T) (rest : list T) :
  is_size_type cap ->
  Z.of_nat (length (x :: rest)) <= MAX_CAPACITY ->
  (not_full_signal cap rest = [NotifyOne NotFullCond] /\
   Z.of_nat (length (x :: rest)) = cap) \/
  (not_full_signal cap rest = [] /\ Z.of_nat (length (x :: rest)) <> cap).
Proof.
  intros Hcap Hlen. unfold not_full_signal.
  rewrite (wrap_pred_capacity Hcap).
  cbn [length] in *.
  destruct (Z.eqb_spec cap 0) as [-> | Hnz].
  - destruct (Z.eqb_spec (Z.of_nat (length rest)) MAX_CAPACITY); [lia |].
    right. split; [reflexivity | lia].
  - destruct (Z.eqb_spec (Z.of_nat (length rest)) (cap - 1)).
    + left. split; [reflexivity | lia].
    + right. split; [reflexivity | lia].
Qed.

(** X9: a call that hands out an item ([get()], [get(&slot)], a
    successful [try_get]) notifies [m_notFullCond], once, exactly when the
    queue was exactly full before: the removal then makes room where there
    was none.  It sends nothing when there was room already or when the
    queue is still at or above capacity, and so never with capacity 0,
    where [m_capacity-1] wraps to [MAX_CAPACITY]. *)
Theorem removal_notifies_iff_exactly_full
        (T : Type) (c : call T) (q q' : thqueue T) (r : reply T)
        (evs : list event) :
  is_size_type (m_capacity q) ->
  queue_length q <= MAX_CAPACITY ->
  exec c q = Done r q' evs ->
  taken_by r <> [] ->
  (evs = [NotifyOne NotFullCond] /\
   queue_length q = m_capacity q /\ queue_length q' < m_capacity q') \/
  (evs = [] /\
   (queue_length q < m_capacity q \/ m_capacity q' <= queue_length q')).
Proof.
  intros Hcap Hlen H Htaken.
  assert (Hshape : exists x rest,
             m_queue q = x :: rest /\
             q' = mk_thqueue (m_capacity q) rest /\
             evs = not_full_signal (m_capacity q) rest).
  { destruct c; unfold exec in H; apply bind_ret_Done in H;
      destruct H as (a & H & ->); cbn in Htaken; try congruence.
    - rewrite get_ptr_eq in H.
      destruct (m_queue q) as [| x rest]; inversion H; subst. eauto.
    - rewrite get_eq in H.
      destruct (m_queue q) as [| x rest]; inversion H; subst. eauto.
    - rewrite try_get_eq in H.
      destruct (m_queue q) as [| x rest]; inversion H; subst;
        cbn in Htaken; [congruence | eauto]. }
  destruct Hshape as (x & rest & Hq & -> & ->).
  unfold queue_length in *. rewrite Hq in *. cbn [m_queue m_capacity].
  destruct (@not_full_signal_cases T _ x rest Hcap Hlen) as [[-> He] | [-> Hne]].
  - left. cbn [length] in *. repeat split; lia.
  - right. split; [reflexivity |]. cbn [length] in *. lia.
Qed.

Lemma removal_notifies_iff_exactly_full_witness :
  ([NotifyOne NotFullCond] = [NotifyOne NotFullCond] /\
   queue_length (mk_thqueue 2 ["a"; "b"]) = 2 /\
   queue_length (mk_thqueue 2 ["b"]) < 2) \/
  ([NotifyOne NotFullCond] = [] /\
   (queue_length (mk_thqueue 2 ["a"; "b"]) < 2 \/
    2 <= queue_length (mk_thqueue 2 ["b"]))).
Proof.
  refine (@removal_notifies_iff_exactly_full String.string
            CGet (mk_thqueue 2 ["a"; "b"]) (mk_thqueue 2 ["b"])
            (RValue "a") [NotifyOne NotFullCond] _ _ eq_refl _).
  - cbv. split; discriminate.
  - cbv. discriminate.
  - discriminate.
Defined.

(** X10: a call that inserts an item ([put], a successful [try_put])
    notifies [m_notEmptyCond], once, exactly when the queue was empty
    before, and sends nothing otherwise. *)
Theorem insertion_notifies_iff_was_empty
        (T : Type) (c : call T) (q q' : thqueue T) (r : reply T)
        (evs : list event) :
  exec c q = Done r q' evs ->
  inserted_by c r <> [] ->
  (evs = [NotifyOne NotEmptyCond] /\ m_queue q = []) \/
  (evs = [] /\ m_queue q <> []).
Proof.
  intros H Hins.
  assert (Hevs : evs = not_empty_signal (queue_is_empty q)).
  { destruct c; unfold exec in H; apply bind_ret_Done in H;
      destruct H as (a & H & ->); cbn in Hins; try congruence.
    - rewrite put_eq in H.
      destruct (queue_length q <? m_capacity q); inversion H; subst.
      reflexivity.
    - rewrite try_put_eq in H.
      destruct (queue_length q <? m_capacity q); inversion H; subst;
        cbn in Hins; [reflexivity | congruence]. }
  subst evs. unfold queue_is_empty.
  destruct (m_queue q); [left | right]; split; auto; discriminate.
Qed.

Lemma insertion_notifies_iff_was_empty_witness :
  ([NotifyOne NotEmptyCond] = [NotifyOne NotEmptyCond] /\
   m_queue (@mk_thqueue String.string 2 []) = []) \/
  ([NotifyOne NotEmptyCond] = [] /\
   m_queue (@mk_thqueue String.string 2 []) <> []).
Proof.
  refine (@insertion_notifies_iff_was_empty String.string
            (CTryPut "a") (mk_thqueue 2 []) (mk_thqueue 2 ["a"])
            (RBool true) [NotifyOne NotEmptyCond] eq_refl _).
  discriminate.
Defined.

(** X11: a completed call that neither inserts nor hands out an item (the
    three observers, [capacity(cap)], a rejected [try_put], a [try_get] on
    an empty queue) keeps the items and notifies nobody. *)
Theorem quiet_calls_send_nothing
        (T : Type) (c : call T) (q q' : thqueue T) (r : reply T)
        (evs : list event) :
  exec c q = Done r q' evs ->
  inserted_by c r = [] ->
  taken_by r = [] ->
  evs = [] /\ m_queue q' = m_queue q.
Proof.
  intros H Hins Htaken.
  destruct c; unfold exec in H; apply bind_ret_Done in H;
    destruct H as (a & H & ->); cbn in Hins, Htaken; try discriminate.
  - inversion H; subst. auto.
  - inversion H; subst. auto.
  - inversion H; subst. auto.
  - inversion H; subst. auto.
  - rewrite try_put_eq in H.
    destruct (queue_length q <? m_capacity q); inversion H; subst;
      [discriminate | auto].
  - rewrite try_get_eq in H.
    destruct (m_queue q) as [| x rest] eqn:Hq; inversion H; subst;
      cbn in Htaken; [auto | discriminate].
Qed.

Lemma quiet_calls_send_nothing_witness :
  @nil event = [] /\
  m_queue (mk_thqueue 1 ["a"]) = m_queue (mk_thqueue 1 ["a"]).
Proof.
  exact (@quiet_calls_send_nothing String.string
           (CTryPut "b") (mk_thqueue 1 ["a"]) (mk_thqueue 1 ["a"])
           (RBool false) [] eq_refl eq_refl eq_refl).
Defined.

(** ** Parking and release *)

(** X12: on an exactly full queue ([size = capacity], at least one item)
    [put(val)] parks on [m_notFullCond]; one [get()] takes the front item
    and notifies [m_notFullCond]; in the state it leaves, [put(val)]
    completes and [val] is the last item. *)
Theorem get_releases_parked_put (T : Type) (q : thqueue T) (val : T) :
  is_size_type (m_capacity q) ->
  m_queue q <> [] ->
  queue_length q = m_capacity q ->
  put val q = Blocked NotFullCond /\
  exists (x : T) (q1 q2 : thqueue T) (evs : list event),
    get q = Done x q1 [NotifyOne NotFullCond] /\
    m_queue q = x :: m_queue q1 /\
    put val q1 = Done tt q2 evs /\
    m_queue q2 = m_queue q1 ++ [val].
Proof.
  intros Hcap Hne Hfull.
  destruct (m_queue q) as [| x rest] eqn:Hq; [contradiction |].
  split.
  { rewrite put_eq.
    destruct (Z.ltb_spec (queue_length q) (m_capacity q)); [lia | reflexivity]. }
  set (q1 := mk_thqueue (m_capacity q) rest).
  exists x, q1, (mk_thqueue (m_capacity q1) (m_queue q1 ++ [val])),
         (not_empty_signal (queue_is_empty q1)).
  assert (Hlen : Z.of_nat (length (x :: rest)) <= MAX_CAPACITY).
  { unfold queue_length in Hfull. rewrite Hq in Hfull.
    unfold is_size_type in Hcap. lia. }
  repeat split.
  - rewrite get_eq, Hq. fold q1.
    destruct (@not_full_signal_cases T _ x rest Hcap Hlen) as [[-> _] | [_ Hne']].
    + reflexivity.
    + unfold queue_length in Hfull. rewrite Hq in Hfull. contradiction.
  - rewrite put_eq.
    destruct (Z.ltb_spec (queue_length q1) (m_capacity q1)) as [_ | Hge];
      [reflexivity |].
    unfold q1, queue_length in *. rewrite Hq in Hfull.
    cbn [m_queue m_capacity length] in *. lia.
Qed.

Lemma get_releases_parked_put_witness :
  put "x2" (mk_thqueue 1 ["x1"]) = Blocked NotFullCond /\
  exists (x : String.string) (q1 q2 : thqueue String.string)
         (evs : list event),
    get (mk_thqueue 1 ["x1"]) = Done x q1 [NotifyOne NotFullCond] /\
    m_queue (mk_thqueue 1 ["x1"]) = x :: m_queue q1 /\
    put "x2" q1 = Done tt q2 evs /\
    m_queue q2 = m_queue q1 ++ ["x2"].
Proof.
  refine (@get_releases_parked_put String.string (mk_thqueue 1 ["x1"])
            "x2" _ _ eq_refl).
  - cbv. split; discriminate.
  - discriminate.
Defined.

(** X13: on an empty queue of capacity at least 1, [get()] parks on
    [m_notEmptyCond]; one [put(val)] completes and notifies
    [m_notEmptyCond]; in the state it leaves, [get()] returns [val] and the
    queue is empty again. *)
Theorem put_releases_parked_get (T : Type) (q : thqueue T) (val : T) :
  m_queue q = [] ->
  1 <= m_capacity q ->
  get q = Blocked NotEmptyCond /\
  exists (q1 : thqueue T) (evs : list event),
    put val q = Done tt q1 [NotifyOne NotEmptyCond] /\
    get q1 = Done val (mk_thqueue (m_capacity q) []) evs.
Proof.
  intros Hq Hcap. split.
  { rewrite get_eq, Hq. reflexivity. }
  exists (mk_thqueue (m_capacity q) [val]),
         (not_full_signal (m_capacity q) (@nil T)).
  split.
  - rewrite put_eq. unfold queue_length, queue_is_empty. rewrite Hq.
    cbn [length app Z.of_nat].
    destruct (Z.ltb_spec 0 (m_capacity q)); [reflexivity | lia].
  - rewrite get_eq. reflexivity.
Qed.

Lemma put_releases_parked_get_witness :
  get (@mk_thqueue String.string 1 []) = Blocked NotEmptyCond /\
  exists (q1 : thqueue String.string) (evs : list event),
    put "x1" (mk_thqueue 1 []) = Done tt q1 [NotifyOne NotEmptyCond] /\
    get q1 = Done "x1" (mk_thqueue 1 []) evs.
Proof.
  refine (@put_releases_parked_get String.string (mk_thqueue 1 []) "x1"
            eq_refl _).
  cbv. discriminate.
Defined.

(** ** Invariants of every reachable state *)

(** X14: whatever calls are made, [capacity(cap)] included, the capacity
    stays a [size_type] value and the queue never holds more than
    [MAX_CAPACITY] items. *)
Theorem reachable_within_size_type (T : Type) (q : thqueue T) :
  reachable q ->
  is_size_type (m_capacity q) /\ 0 <= queue_length q <= MAX_CAPACITY.
Proof.
  unfold reachable, is_size_type, queue_length.
  induction 1 as [| cap Hcap | q c r q' evs _ IH Htyped _ Hexec].
  - cbn. rewrite MAX_CAPACITY_value. lia.
  - apply is_size_type_max in Hcap. unfold is_size_type in *. cbn. lia.
  - apply exec_effect in Hexec.
    destruct Hexec as [c r _ | cap | c r val _ Hlt | c r x rest _ Hq _];
      cbn in *; unfold is_size_type, queue_length in *; cbn in *.
    + exact IH.
    + lia.
    + rewrite length_app. cbn. lia.
    + rewrite Hq in IH. cbn [length] in IH. lia.
Qed.

Lemma reachable_within_size_type_witness :
  is_size_type (m_capacity (@mk_thqueue String.string 0 ["a"])) /\
  0 <= queue_length (@mk_thqueue String.string 0 ["a"]) <= MAX_CAPACITY.
Proof.
  apply (@reachable_within_size_type String.string (mk_thqueue 0 ["a"])).
  unfold reachable.
  after_call (mk_thqueue 1 ["a"]) (@CSetCapacity String.string 0).
  after_call (@thqueue_cap String.string 1) (CPut "a").
  apply reach_cap. cbv. split; discriminate.
Defined.

(** X15: no call other than [capacity(cap)] changes the capacity or lifts
    the size above it: afterwards the size is at most the larger of the
    size before and the capacity.  A queue left above its capacity by
    [capacity(cap)] can only shrink until it is below it. *)
Theorem size_never_grows_past_capacity
        (T : Type) (c : call T) (q q' : thqueue T) (r : reply T)
        (evs : list event) :
  exec c q = Done r q' evs ->
  is_set_capacity c = false ->
  m_capacity q' = m_capacity q /\
  queue_length q' <= Z.max (queue_length q) (m_capacity q).
Proof.
  intros Hexec Hc. apply exec_effect in Hexec.
  destruct Hexec as [c r _ | cap | c r val _ Hlt | c r x rest _ Hq _];
    unfold queue_length in *; cbn [m_queue m_capacity].
  - lia.
  - discriminate.
  - rewrite length_app. cbn. lia.
  - rewrite Hq. cbn [length]. lia.
Qed.

Lemma size_never_grows_past_capacity_witness :
  m_capacity (mk_thqueue 1 ["b"; "c"]) = m_capacity (mk_thqueue 1 ["a"; "b"; "c"]) /\
  queue_length (mk_thqueue 1 ["b"; "c"])
    <= Z.max (queue_length (mk_thqueue 1 ["a"; "b"; "c"]))
             (m_capacity (mk_thqueue 1 ["a"; "b"; "c"])).
Proof.
  exact (@size_never_grows_past_capacity String.string
           CGet (mk_thqueue 1 ["a"; "b"; "c"]) (mk_thqueue 1 ["b"; "c"])
           (RValue "a") [] eq_refl eq_refl).
Defined.

(** * The threads of [main.cpp] *)

Lemma producer_iteration_eq (data : String.string) (q : thqueue String.string) :
  producer_iteration data q =
    if queue_length q <? m_capacity q
    then Done tt (mk_thqueue (m_capacity q) (m_queue q ++ [data]))
              (not_empty_signal (queue_is_empty q))
    else Done tt q [].
Proof.
  unfold producer_iteration, bind. rewrite try_put_eq.
  destruct (queue_length q <? m_capacity q); cbn;
    rewrite ?app_nil_r; reflexivity.
Qed.

Lemma consumer_iteration_eq (stop : bool) (q : thqueue String.string) :
  consumer_iteration stop q =
    match m_queue q with
    | [] => Done (if stop then Stopped else Again) q []
    | x :: rest =>
        Done (Printed x) (mk_thqueue (m_capacity q) rest)
             (not_full_signal (m_capacity q) rest)
    end.
Proof.
  unfold consumer_iteration, bind. rewrite try_get_eq.
  destruct (m_queue q) as [| x rest]; cbn.
  - destruct stop; reflexivity.
  - rewrite app_nil_r. reflexivity.
Qed.

(** X16: while the threads of [main] run, the shared queue keeps capacity
    1000 and never holds more than 1000 strings. *)
Theorem main_queue_bounded (q : thqueue String.string) :
  main_reachable q ->
  m_capacity q = 1000 /\ 0 <= queue_length q <= 1000.
Proof.
  induction 1 as [| data q q' evs _ IH Hstep | stop a q q' evs _ IH Hstep].
  - cbv. repeat split; discriminate.
  - rewrite producer_iteration_eq in Hstep.
    destruct (Z.ltb_spec (queue_length q) (m_capacity q));
      inversion Hstep; subst; [| exact IH].
    unfold queue_length in *. cbn [m_queue m_capacity].
    rewrite length_app. cbn [length]. lia.
  - rewrite consumer_iteration_eq in Hstep.
    destruct (m_queue q) as [| x rest] eqn:Hq; inversion Hstep; subst;
      [exact IH |].
    unfold queue_length in *. rewrite Hq in IH.
    cbn [m_queue m_capacity length] in *. lia.
Qed.

Lemma main_queue_bounded_witness :
  m_capacity (mk_thqueue 1000 ["seq = 1"]) = 1000 /\
  0 <= queue_length (mk_thqueue 1000 ["seq = 1"]) <= 1000.
Proof.
  apply (main_queue_bounded (q := mk_thqueue 1000 ["seq = 1"])).
  apply (@main_consumer false (Printed "seq = 0")
           (mk_thqueue 1000 ["seq = 0"; "seq = 1"]) _
           []); [| vm_compute; reflexivity].
  apply (@main_producer "seq = 1" (mk_thqueue 1000 ["seq = 0"]) _
           []); [| vm_compute; reflexivity].
  apply (@main_producer "seq = 0" q_main _
           [NotifyOne NotEmptyCond]); [| vm_compute; reflexivity].
  apply main_start.
Defined.

(** X17: no pass through the loop of [producer_thread] or of
    [consumer_thread] ever parks or runs into undefined behaviour, in any
    state of the queue: both threads only use the non-blocking calls. *)
Theorem main_threads_never_park
        (q : thqueue String.string) (data : String.string) (stop : bool) :
  (exists q' evs, producer_iteration data q = Done tt q' evs) /\
  (exists a q' evs, consumer_iteration stop q = Done a q' evs).
Proof.
  split.
  - rewrite producer_iteration_eq.
    destruct (queue_length q <? m_capacity q); eauto.
  - rewrite consumer_iteration_eq.
    destruct (m_queue q); eauto.
Qed.

(** X18: one pass of the consumer loop.  The pass ends the loop exactly
    when its [try_get] found the queue empty and [stop], read after that,
    was set, and such a pass changes nothing; when its [try_get] finds an
    item, the pass takes and prints the front item, [stop] set or not. *)
Theorem consumer_drains_before_stopping
        (stop : bool) (q q' : thqueue String.string) (a : consumer_action)
        (evs : list event) :
  consumer_iteration stop q = Done a q' evs ->
  (a = Stopped <-> stop = true /\ m_queue q = []) /\
  (a = Stopped -> q' = q /\ evs = []) /\
  (forall x rest, m_queue q = x :: rest ->
     a = Printed x /\ m_queue q' = rest).
Proof.
  rewrite consumer_iteration_eq. intros H.
  destruct (m_queue q) as [| x rest] eqn:Hq; inversion H; subst.
  - destruct stop; split; [| split | | split];
      solve [ intuition discriminate | intros x rest Hx; discriminate Hx ].
  - split; [| split].
    + intuition discriminate.
    + intros Ha. discriminate Ha.
    + intros x' rest' Heq. inversion Heq. auto.
Qed.

Lemma consumer_drains_before_stopping_witness :
  (Printed "seq = 7" = Stopped <->
     true = true /\ m_queue (mk_thqueue 1000 ["seq = 7"; "seq = 8"]) = []) /\
  (Printed "seq = 7" = Stopped ->
     mk_thqueue 1000 ["seq = 8"] = mk_thqueue 1000 ["seq = 7"; "seq = 8"] /\
     @nil event = []) /\
  (forall x rest,
     m_queue (mk_thqueue 1000 ["seq = 7"; "seq = 8"]) = x :: rest ->
     Printed "seq = 7" = Printed x /\
     m_queue (mk_thqueue 1000 ["seq = 8"]) = rest).
Proof.
  exact (@consumer_drains_before_stopping true
           (mk_thqueue 1000 ["seq = 7"; "seq = 8"])
           (mk_thqueue 1000 ["seq = 8"]) (Printed "seq = 7") [] eq_refl).
Defined.
